(** * Recipe backend: the three request handlers of [main.py]

    A shallow embedding of the diagnostics responder ([test_database]),
    the image-keyword resolver ([recipe_from_image]) and the
    ingredient-overlap matcher ([recipes_from_ingredients]), followed by
    the properties the specification states about them.

    Text is held as [string], the UTF-8 bytes of the Python [str].  The
    interpreter's [str.lower] and [str.strip] are parameters ([PyStr]); the
    persistence layer's [create_document] is a parameter too ([Database]),
    since [database.py] only exposes it to the handlers. *)

From stdpp Require Import gmap strings list sorting pretty.
From Stdlib Require Import Ascii.

(** ** Python text *)

(** [str.lower] and [str.strip] of the interpreter. *)
Class PyStr := {
  lower : string → string;
  strip : string → string
}.

(** [k in s] on text: [k] occurs in [s] as a contiguous run.  On valid
    UTF-8 an occurrence of bytes is an occurrence of code points. *)
Fixpoint str_in (k s : string) : bool :=
  String.prefix k s ||
  match s with
  | EmptyString => false
  | String _ s' => str_in k s'
  end.

(** A byte that continues a multi-byte UTF-8 character (10xxxxxx). *)
Definition utf8_cont (c : ascii) : bool :=
  let n := nat_of_ascii c in (128 <=? n) && (n <? 192).

(** [s[:n]]: the first [n] characters of [s]. *)
Fixpoint str_take (n : nat) (s : string) : string :=
  match s with
  | EmptyString => EmptyString
  | String c s' =>
      if utf8_cont c then String c (str_take n s')
      else match n with
           | O => EmptyString
           | S n' => String c (str_take n' s')
           end
  end.

(** ** Exceptions and the handler monad *)

Inductive exn :=
  | HTTPException (status_code : nat) (detail : string)
  | Exception (msg : string).

(** [str(e)] *)
Definition exn_str (e : exn) : string :=
  match e with
  | HTTPException c d => pretty c +:+ ": " +:+ d
  | Exception m => m
  end.

Inductive result (A : Type) :=
  | Ok (a : A)
  | Raise (e : exn).
Arguments Ok {A} a.
Arguments Raise {A} e.

(** A computation over a mutable state [S] that returns or raises. *)
Definition M (S A : Type) : Type := S → result A * S.

#[global] Instance M_ret {S} : MRet (M S) := λ A a s, (Ok a, s).
#[global] Instance M_bind {S} : MBind (M S) := λ A B f m s,
  match m s with
  | (Ok a, s') => f a s'
  | (Raise e, s') => (Raise e, s')
  end.
#[global] Instance M_throw {S} : MThrow exn (M S) := λ A e s, (Raise e, s).

(** [try: m  except Exception as e: h e].  Both constructors of [exn] are
    subclasses of [Exception]; what the body did to the state stays. *)
Definition try_except {S A} (m : M S A) (h : exn → M S A) : M S A := λ s,
  match m s with
  | (Ok a, s') => (Ok a, s')
  | (Raise e, s') => h e s'
  end.

Definition modify {S} (f : S → S) : M S () := λ s, (Ok tt, f s).
Definition get_state {S} : M S S := λ s, (Ok s, s).

(** ** Data model ([schemas.py]) *)

Record Recipe := {
  title : string;
  ingredients : list string;
  steps : list string;
  source : option string;
  image_filename : option string
}.

(** What [create_document] is given: a [Recipe], or the query-log dict
    [{"ingredients": ..., "matches": ...}]. *)
Inductive Document :=
  | DocRecipe (r : Recipe)
  | DocQuery (q_ingredients q_matches : list string).

(** The persistence layer, as the handlers see it:
    [create_document(kind, payload)] returns an id or raises, and may
    change the store either way. *)
Class Database := {
  World : Type;
  create_document : string → Document → M World string
}.

(** ** Root endpoint *)

(** [read_root()]: the one-entry dict. *)
Definition read_root : list (string * string) :=
  [("message", "Recipe AI backend ready")].

(** ** Diagnostics responder *)

(** Reading an attribute: absent, a value, or a property that raises. *)
Inductive attr :=
  | AttrMissing
  | AttrValue (v : string)
  | AttrRaises (e : exn).

(** The [db] handle of [database.py], as far as [test_database] uses it. *)
Record DbHandle := {
  db_name : attr;
  list_collection_names : result (list string)
}.

(** The response dict of [test_database]. *)
Record Diag := {
  backend : string;
  database : string;
  database_url : option string;
  database_name : option string;
  connection_status : string;
  collections : list string
}.

Definition set_database (v : string) (r : Diag) : Diag :=
  {| backend := backend r; database := v; database_url := database_url r;
     database_name := database_name r;
     connection_status := connection_status r; collections := collections r |}.
Definition set_database_url (v : option string) (r : Diag) : Diag :=
  {| backend := backend r; database := database r; database_url := v;
     database_name := database_name r;
     connection_status := connection_status r; collections := collections r |}.
Definition set_database_name (v : option string) (r : Diag) : Diag :=
  {| backend := backend r; database := database r;
     database_url := database_url r; database_name := v;
     connection_status := connection_status r; collections := collections r |}.
Definition set_connection_status (v : string) (r : Diag) : Diag :=
  {| backend := backend r; database := database r;
     database_url := database_url r; database_name := database_name r;
     connection_status := v; collections := collections r |}.
Definition set_collections (v : list string) (r : Diag) : Diag :=
  {| backend := backend r; database := database r;
     database_url := database_url r; database_name := database_name r;
     connection_status := connection_status r; collections := v |}.

(** [hasattr(db, 'name')]: false on a missing attribute, and an exception
    other than [AttributeError] passes through. *)
Definition hasattr_name (d : DbHandle) : M Diag bool :=
  match db_name d with
  | AttrMissing => mret false
  | AttrValue _ => mret true
  | AttrRaises e => mthrow e
  end.

(** [db.name] *)
Definition getattr_name (d : DbHandle) : M Diag string :=
  match db_name d with
  | AttrMissing => mthrow (Exception "'Database' object has no attribute 'name'")
  | AttrValue v => mret v
  | AttrRaises e => mthrow e
  end.

(** Lifts a call that returns or raises without touching the dict. *)
Definition call {S A} (r : result A) : M S A := λ s, (r, s).

(** Truth value of [os.getenv(k)]: set and not empty. *)
Definition env_set (getenv : string → option string) (k : string) : bool :=
  match getenv k with
  | Some v => bool_decide (v ≠ "")
  | None => false
  end.

Definition test_database_body (db : option DbHandle)
    (getenv : string → option string) : M Diag Diag :=
  try_except
    (match db with
     | Some d =>
         modify (set_database "✅ Available");;
         modify (set_database_url (Some "✅ Configured"));;
         has ← hasattr_name d;
         nm ← (if has : bool then getattr_name d else mret "✅ Connected");
         modify (set_database_name (Some nm));;
         modify (set_connection_status "Connected");;
         try_except
           (cs ← call (list_collection_names d);
            modify (set_collections (take 10 cs));;
            modify (set_database "✅ Connected & Working"))
           (λ e, modify (set_database
                   ("⚠️  Connected but Error: " +:+ str_take 50 (exn_str e))))
     | None => modify (set_database "⚠️  Available but not initialized")
     end)
    (λ e, modify (set_database ("❌ Error: " +:+ str_take 50 (exn_str e))));;
  modify (set_database_url
    (Some (if env_set getenv "DATABASE_URL" then "✅ Set" else "❌ Not Set")));;
  modify (set_database_name
    (Some (if env_set getenv "DATABASE_NAME" then "✅ Set" else "❌ Not Set")));;
  get_state.

(** [test_database()]: the body run on the freshly built response dict. *)
Definition test_database (db : option DbHandle)
    (getenv : string → option string) : result Diag :=
  (test_database_body db getenv
     {| backend := "✅ Running";
        database := "❌ Not Available";
        database_url := None;
        database_name := None;
        connection_status := "Not Connected";
        collections := [] |}).1.

(** ** Image-keyword recipe resolver *)

(** The upload: its name, if any, and its bytes. *)
Record UploadFile := {
  filename : option string;
  content : list Byte.byte
}.

(** [await file.read()] *)
Definition read {S} (file : UploadFile) : M S (list Byte.byte) :=
  mret (content file).

(** The response dict of [recipe_from_image]. *)
Record ImageResponse := {
  resp_id : option string;
  resp_title : string;
  resp_ingredients : list string;
  resp_steps : list string
}.

(** [any(k in name_lower for k in keywords)] *)
Definition any_in (keywords : list string) (name_lower : string) : bool :=
  existsb (λ k, str_in k name_lower) keywords.

(** The three fixed guesses: title, ingredients, steps. *)
Definition pizza_template : string * list string * list string :=
  ("Domowa pizza margherita",
   ["Ciasto do pizzy";
    "Sos pomidorowy";
    "Mozzarella";
    "Świeża bazylia";
    "Oliwa z oliwek";
    "Sól, pieprz"],
   ["Rozgrzej piekarnik do 250°C.";
    "Rozwałkuj ciasto, posmaruj sosem.";
    "Dodaj plastry mozzarelli i listki bazylii.";
    "Skrop oliwą i dopraw.";
    "Piec 8–12 minut do zrumienienia."]).

Definition salad_template : string * list string * list string :=
  ("Kolorowa sałatka warzywna",
   ["Miks sałat";
    "Pomidor";
    "Ogórek";
    "Czerwona cebula";
    "Oliwa, sok z cytryny";
    "Sól, pieprz"],
   ["Warzywa pokrój w kostkę.";
    "Wymieszaj z miksem sałat.";
    "Skrop oliwą i sokiem z cytryny, dopraw do smaku."]).

Definition generic_template : string * list string * list string :=
  ("Prosty przepis na rozpoznane danie",
   ["Podstawowe warzywa (np. cebula, czosnek)";
    "Główny składnik (np. kurczak/warzywa/makaron)";
    "Przyprawy (sól, pieprz, papryka)";
    "Tłuszcz do smażenia";
    "Dodatek (np. ryż/makaron/pieczywo)"],
   ["Przygotuj składniki: pokrój warzywa i główny składnik.";
    "Podsmaż na rozgrzanym tłuszczu, dopraw do smaku.";
    "Duś lub piecz do miękkości.";
    "Podawaj z wybranym dodatkiem."]).

(** Lines 78-124: the [if]/[elif]/[else] over the lower-cased name. *)
Definition guess (name_lower : string) : string * list string * list string :=
  if any_in ["pizza"; "margherita"] name_lower then pizza_template
  else if any_in ["salad"; "salat"; "sałat"] name_lower then salad_template
  else generic_template.

Section resolver.
Context `{PyStr} `{Database}.

(** The [Recipe] built at lines 126-132. *)
Definition guessed_recipe (filename : string) : Recipe :=
  let name_lower := lower filename in
  let '(title', ingredients', steps') := guess name_lower in
  {| title := title';
     ingredients := ingredients';
     steps := steps';
     source := Some "image";
     image_filename := Some filename |}.

(** [recipe_from_image(file)]: 400 without a filename; otherwise the
    upload is read, the guess is made, written best-effort and returned. *)
Definition recipe_from_image (file : UploadFile) : M World ImageResponse :=
  match filename file with
  | None | Some EmptyString => mthrow (HTTPException 400 "No file uploaded")
  | Some filename =>
      read file;;
      let recipe := guessed_recipe filename in
      doc_id ← try_except
                 (i ← create_document "recipe" (DocRecipe recipe);
                  mret (Some i))
                 (λ _, mret None);
      mret {| resp_id := doc_id;
              resp_title := recipe.(title);
              resp_ingredients := recipe.(ingredients);
              resp_steps := recipe.(steps) |}
  end.
End resolver.

(** ** Ingredient-overlap recipe matcher *)

Record IngredientsRequest := {
  req_ingredients : list string
}.

(** One element of the matcher's response list. *)
Record RecipeOut := {
  out_title : string;
  out_ingredients : list string;
  out_steps : list string
}.

Definition catalog : list Recipe :=
  [ {| title := "Spaghetti aglio e olio";
       ingredients := ["makaron"; "czosnek"; "oliwa z oliwek"; "pietruszka";
                       "papryczka chili"; "sól"];
       steps := ["Ugotuj makaron al dente.";
                 "Na oliwie podsmaż czosnek i chili.";
                 "Wymieszaj z makaronem i posiekaną pietruszką, dopraw."];
       source := Some "seed";
       image_filename := None |};
    {| title := "Sałatka grecka";
       ingredients := ["pomidor"; "ogórek"; "cebula czerwona"; "ser feta";
                       "oliwki"; "oliwa"; "oregano"; "sól"];
       steps := ["Warzywa pokrój w kostkę.";
                 "Dodaj fetę i oliwki, skrop oliwą, posyp oregano.";
                 "Dopraw solą i delikatnie wymieszaj."];
       source := Some "seed";
       image_filename := None |};
    {| title := "Kurczak curry";
       ingredients := ["kurczak"; "cebula"; "czosnek"; "imbir"; "pasta curry";
                       "mleczko kokosowe"; "ryż"; "sól"];
       steps := ["Podsmaż cebulę, czosnek i imbir.";
                 "Dodaj kurczaka i pastę curry, smaż chwilę.";
                 "Wlej mleczko kokosowe i duś do miękkości. Podawaj z ryżem."];
       source := Some "seed";
       image_filename := None |} ].

(** [l.sort(key=lambda x: x[0], reverse=True)]: descending by score, and
    stable, so entries of equal score keep their order.  A stable sort has
    one possible output; it is written here as an insertion sort. *)
Fixpoint insert_desc {A} (x : nat * A) (l : list (nat * A)) : list (nat * A) :=
  match l with
  | [] => [x]
  | y :: l' => if decide (x.1 < y.1) then y :: insert_desc x l' else x :: l
  end.

Fixpoint sort_desc {A} (l : list (nat * A)) : list (nat * A) :=
  match l with
  | [] => []
  | x :: l' => insert_desc x (sort_desc l')
  end.

(** The condition of the list comprehension that builds [results]. *)
Definition passes (n_user : nat) (score : nat) : Prop :=
  (n_user = 1 ∧ 1 ≤ score) ∨ (1 < n_user ∧ 2 ≤ score).

#[global] Instance passes_dec n s : Decision (passes n s).
Proof. unfold passes. apply _. Defined.

Section matcher.
Context `{PyStr}.

(** [[i.strip().lower() for i in payload.ingredients if i.strip()]] *)
Definition normalize (ings : list string) : list string :=
  (λ i, lower (strip i)) <$> filter (λ i, strip i ≠ "") ings.

(** [len(set(user_ings) & set(r_ings))] *)
Definition overlap (user_ings : list string) (r : Recipe) : nat :=
  let r_ings := lower <$> ingredients r in
  size ((list_to_set user_ings : gset string) ∩ list_to_set r_ings).

(** The loop that fills [scored], then the sort. *)
Definition scored (catalog : list Recipe) (user_ings : list string)
    : list (nat * Recipe) :=
  sort_desc ((λ r, (overlap user_ings r, r)) <$> catalog).

(** Lines 191-201: scoring, sorting, filtering and the fallback. *)
Definition match_recipes (catalog : list Recipe) (user_ings : list string)
    : list Recipe :=
  let scored := scored catalog user_ings in
  let results :=
    snd <$> filter (λ x, passes (length user_ings) x.1) scored in
  match results, scored with
  | [], s0 :: _ => [s0.2]
  | _, _ => results
  end.

Definition recipe_out (r : Recipe) : RecipeOut :=
  {| out_title := title r;
     out_ingredients := ingredients r;
     out_steps := steps r |}.

Context `{Database}.

(** [recipes_from_ingredients(payload)]: 400 when nothing is left of the
    input; otherwise the match, the best-effort query log and the list. *)
Definition recipes_from_ingredients (payload : IngredientsRequest)
    : M World (list RecipeOut) :=
  let user_ings := normalize (req_ingredients payload) in
  match user_ings with
  | [] => mthrow (HTTPException 400 "Podaj co najmniej jeden składnik")
  | _ =>
      let results := match_recipes catalog user_ings in
      try_except
        (create_document "recipe_query"
           (DocQuery user_ings (title <$> results));;
         mret tt)
        (λ _, mret tt);;
      mret (recipe_out <$> results)
  end.
End matcher.

(** ** A concrete interpreter and store, to run the handlers on inputs *)

(** [str.lower] on one byte; [lead] is the preceding byte when that byte
    opens a two-byte character. *)
Definition lower_byte (lead : option ascii) (c : ascii) : ascii :=
  let n := nat_of_ascii c in
  if n <? 128 then
    if (65 <=? n) && (n <=? 90) then ascii_of_nat (n + 32) else c
  else
    match lead with
    | None => c
    | Some l =>
        let m := nat_of_ascii l in
        if (m =? 195) && (n =? 147) then ascii_of_nat 179
        else if (m =? 196) && bool_decide (n ∈ [132; 134; 152])
        then ascii_of_nat (n + 1)
        else if (m =? 197) && bool_decide (n ∈ [129; 131; 154; 185; 187])
        then ascii_of_nat (n + 1)
        else c
    end.

Definition utf8_lead2 (c : ascii) : bool :=
  let n := nat_of_ascii c in (192 <=? n) && (n <? 224).

Fixpoint lower_from (lead : option ascii) (s : string) : string :=
  match s with
  | EmptyString => EmptyString
  | String c s' =>
      String (lower_byte lead c)
             (lower_from (if utf8_lead2 c then Some c else None) s')
  end.

(** [str.lower] restricted to ASCII and the Polish letters
    (Ą Ć Ę Ł Ń Ó Ś Ź Ż); other text is left as it is. *)
Definition latin_lower (s : string) : string := lower_from None s.

(** ASCII white space, as [str.isspace] has it. *)
Definition is_space (c : ascii) : bool :=
  let n := nat_of_ascii c in
  ((9 <=? n) && (n <=? 13)) || ((28 <=? n) && (n <=? 32)).

Fixpoint lstrip (s : string) : string :=
  match s with
  | EmptyString => EmptyString
  | String c s' => if is_space c then lstrip s' else s
  end.

Fixpoint rstrip (s : string) : string :=
  match s with
  | EmptyString => EmptyString
  | String c s' =>
      match rstrip s' with
      | EmptyString => if is_space c then EmptyString else String c EmptyString
      | t => String c t
      end
  end.

(** [str.strip] for ASCII white space. *)
Definition ascii_strip (s : string) : string := rstrip (lstrip s).

Definition latin : PyStr := {| lower := latin_lower; strip := ascii_strip |}.

(** An in-memory store that is either up or down. *)
Record Store := {
  online : bool;
  docs : list (string * Document)
}.

Definition store_insert (kind : string) (d : Document) : M Store string :=
  λ st,
    if online st
    then (Ok (pretty (length (docs st))),
          {| online := true; docs := docs st ++ [(kind, d)] |})
    else (Raise (Exception "Database not available"), st).

Definition store_db : Database :=
  {| World := Store; create_document := store_insert |}.

Definition store_up : Store := {| online := true; docs := [] |}.
Definition store_down : Store := {| online := false; docs := [] |}.

(** ** Vocabulary of the statements *)

(** Descending by score. *)
Definition by_score_desc {A} (a b : nat * A) : Prop := b.1 ≤ a.1.

(** Scored entries of equal score whose payloads are related by [R]. *)
Definition score_related {A B} (R : A → B → Prop)
    (a : nat * A) (b : nat * B) : Prop :=
  a.1 = b.1 ∧ R a.2 b.2.

(** Two recipes that differ at most in the order of their ingredients. *)
Definition same_up_to_order (r r' : Recipe) : Prop :=
  title r = title r' ∧ ingredients r ≡ₚ ingredients r' ∧
  steps r = steps r' ∧ source r = source r' ∧
  image_filename r = image_filename r'.

(** Title, ingredients and steps of a response, without the id. *)
Definition image_content (r : ImageResponse)
    : string * list string * list string :=
  (resp_title r, resp_ingredients r, resp_steps r).

(** The outcome of a request as the client sees it: the payload on
    success, the exception otherwise. *)
Definition outcome {A B} (f : A → B) (r : result A) : result B :=
  match r with
  | Ok a => Ok (f a)
  | Raise e => Raise e
  end.

(** The selection rule with the threshold chosen by the number of
    distinct normalized ingredients; [match_recipes] chooses it by
    [len(user_ings)] instead. *)
Definition threshold_by_set `{PyStr} (ings : list string) : Prop :=
  let user_ings := normalize ings in
  let S : gset string := list_to_set user_ings in
  let results := match_recipes catalog user_ings in
  (size S = 1 → ∀ r, r ∈ catalog → 1 ≤ overlap user_ings r → r ∈ results) ∧
  (1 < size S → ∀ r, r ∈ catalog → 2 ≤ overlap user_ings r → r ∈ results) ∧
  StronglySorted (λ a b, overlap user_ings b ≤ overlap user_ings a) results.

(** [len(s)]: the number of characters of [s], one per byte that does
    not continue a multi-byte character. *)
Fixpoint utf8_chars (s : string) : nat :=
  match s with
  | EmptyString => 0
  | String c s' => (if utf8_cont c then 0 else 1) + utf8_chars s'
  end.

(** The response of [test_database] once the two environment flags are
    filled in: what is left to vary is the [database] text, the
    [connection_status] and the [collections]. *)
Definition diag_response (getenv : string → option string)
    (database connection_status : string) (collections : list string)
    : Diag :=
  {| backend := "✅ Running";
     database := database;
     database_url :=
       Some (if env_set getenv "DATABASE_URL" then "✅ Set" else "❌ Not Set");
     database_name :=
       Some (if env_set getenv "DATABASE_NAME" then "✅ Set" else "❌ Not Set");
     connection_status := connection_status;
     collections := collections |}.

(** The user's ingredient [x] is among the lower-cased ingredients of [r]. *)
Definition uses `{PyStr} (x : string) (r : Recipe) : Prop :=
  x ∈ lower <$> ingredients r.

#[global] Instance uses_dec `{PyStr} x r : Decision (uses x r).
Proof. unfold uses. apply _. Defined.

(** * Properties *)

(** ** The monad *)

Lemma bind_ok {S A B} (m : M S A) (f : A → M S B) s a s' :
  m s = (Ok a, s') → (m ≫= f) s = f a s'.
Proof. intros E. unfold mbind, M_bind. by rewrite E. Qed.

Lemma bind_raise {S A B} (m : M S A) (f : A → M S B) s e s' :
  m s = (Raise e, s') → (m ≫= f) s = (Raise e, s').
Proof. intros E. unfold mbind, M_bind. by rewrite E. Qed.

Lemma try_except_never_raises {S A} (m : M S A) (h : exn → M S A) s :
  (∀ e s', ∃ a, (h e s').1 = Ok a) → ∃ a, (try_except m h s).1 = Ok a.
Proof.
  intros Hh. unfold try_except.
  destruct (m s) as [[a|e] s']; [by exists a | apply Hh].
Qed.

(** ** Substring test *)

Lemma append_cons c a b : String c a +:+ b = String c (a +:+ b).
Proof. reflexivity. Qed.
Lemma append_nil b : "" +:+ b = b.
Proof. reflexivity. Qed.

Lemma prefix_spec k s : String.prefix k s = true ↔ ∃ b, s = k +:+ b.
Proof.
  revert k. induction s as [|d s IH]; intros [|c k]; simpl.
  - split; [by exists "" | done].
  - split; [done | by intros [b ?]].
  - split; [by exists (String d s) | done].
  - setoid_rewrite append_cons.
    destruct (Ascii.ascii_dec c d) as [->|Hne].
    + rewrite IH. split; intros [b Hb]; exists b; congruence.
    + split; [done | intros [b Hb]; congruence].
Qed.

Lemma str_in_nil k : str_in k "" = String.prefix k "".
Proof. simpl. apply orb_false_r. Qed.

Lemma str_in_cons k c s :
  str_in k (String c s) = String.prefix k (String c s) || str_in k s.
Proof. reflexivity. Qed.

(** [str_in k s] holds exactly when [s] is [a + k + b] for some [a], [b]. *)
Lemma str_in_spec k s :
  str_in k s = true ↔ ∃ a b, s = a +:+ k +:+ b.
Proof.
  induction s as [|c s IH].
  - rewrite str_in_nil, prefix_spec. split.
    + intros [b Hb]. by exists "", b.
    + intros [a [b Hb]]. destruct a; [by exists b | done].
  - rewrite str_in_cons, orb_true_iff, prefix_spec, IH. split.
    + intros [[b Hb] | [a [b Hb]]].
      * by exists "", b.
      * exists (String c a), b. by rewrite append_cons, Hb.
    + intros [a [b Hb]]. destruct a as [|c' a].
      * left. by exists b.
      * right. exists a, b. rewrite append_cons in Hb. congruence.
Qed.

(** ** The sort *)

Section sort_facts.
Context {A : Type}.
Implicit Types (x y : nat * A) (l : list (nat * A)).

Lemma insert_desc_perm x l : insert_desc x l ≡ₚ x :: l.
Proof.
  induction l as [|y l IH]; simpl; [done|].
  case_decide; [|done]. rewrite IH. apply Permutation_swap.
Qed.

Lemma sort_desc_perm l : sort_desc l ≡ₚ l.
Proof.
  induction l as [|x l IH]; simpl; [done|].
  by rewrite insert_desc_perm, IH.
Qed.

Lemma insert_desc_sorted x l :
  StronglySorted by_score_desc l →
  StronglySorted by_score_desc (insert_desc x l).
Proof.
  induction 1 as [|y l Hs IH Hy]; simpl.
  - repeat constructor.
  - case_decide as Hlt.
    + constructor; [done|]. rewrite insert_desc_perm.
      constructor; [|done]. unfold by_score_desc. lia.
    + constructor; [by constructor|]. constructor.
      * unfold by_score_desc. lia.
      * eapply Forall_impl; [exact Hy|].
        unfold by_score_desc. intros z ?. lia.
Qed.

Lemma sort_desc_sorted l : StronglySorted by_score_desc (sort_desc l).
Proof.
  induction l; simpl; [constructor | by apply insert_desc_sorted].
Qed.

(** Stability: entries of one score keep their relative order. *)
Lemma insert_desc_stable k x l :
  filter (λ z, z.1 = k) (insert_desc x l) = filter (λ z, z.1 = k) (x :: l).
Proof.
  induction l as [|y l IH]; simpl; [done|].
  case_decide as Hlt; [|done].
  rewrite (filter_cons _ y), IH, !(filter_cons _ x), !(filter_cons _ y).
  repeat case_decide; try done; lia.
Qed.

Lemma sort_desc_stable k l :
  filter (λ z, z.1 = k) (sort_desc l) = filter (λ z, z.1 = k) l.
Proof.
  induction l as [|x l IH]; simpl; [done|].
  by rewrite insert_desc_stable, !(filter_cons _ x), IH.
Qed.

Lemma sorted_classes_eq l1 l2 :
  StronglySorted by_score_desc l1 → StronglySorted by_score_desc l2 →
  (∀ k, filter (λ z, z.1 = k) l1 = filter (λ z, z.1 = k) l2) →
  l1 = l2.
Proof.
  intros H1. revert l2.
  induction H1 as [|x l1 Hs1 IH Hx]; intros l2 H2 Hk.
  - destruct l2 as [|y l2]; [done|].
    specialize (Hk y.1). by rewrite filter_cons_True in Hk.
  - destruct H2 as [|y l2 Hs2 Hy].
    + specialize (Hk x.1). by rewrite filter_cons_True in Hk.
    + assert (x = y) as <-.
      { destruct (decide (x.1 = y.1)) as [E|N].
        - specialize (Hk x.1).
          rewrite !filter_cons_True in Hk by done. congruence.
        - assert (y ∈ x :: l1) as Hin1.
          { eapply (list_elem_of_filter (λ z, z.1 = y.1)).
            rewrite (Hk y.1), filter_cons_True by done. left. }
          assert (x ∈ y :: l2) as Hin2.
          { eapply (list_elem_of_filter (λ z, z.1 = x.1)).
            rewrite <- (Hk x.1), filter_cons_True by done. left. }
          rewrite Forall_forall in Hx, Hy. unfold by_score_desc in *.
          apply elem_of_cons in Hin1 as [->|Hin1]; [done|].
          apply elem_of_cons in Hin2 as [->|Hin2]; [done|].
          specialize (Hx _ Hin1). specialize (Hy _ Hin2). lia. }
      f_equal. apply IH; [done|]. intros k. specialize (Hk k).
      rewrite !(filter_cons _ x) in Hk. case_decide; congruence.
Qed.

(** Any stable descending sort returns what [sort_desc] returns, so
    the choice of algorithm does not show. *)
Lemma stable_sort_unique l l' :
  StronglySorted by_score_desc l' →
  (∀ k, filter (λ z, z.1 = k) l' = filter (λ z, z.1 = k) l) →
  l' = sort_desc l.
Proof.
  intros Hs Hk. apply sorted_classes_eq; [done | apply sort_desc_sorted |].
  intros k. by rewrite Hk, sort_desc_stable.
Qed.

Lemma sort_desc_head_max x l' l :
  sort_desc l = x :: l' → ∀ y, y ∈ l → y.1 ≤ x.1.
Proof.
  intros E y Hy. rewrite <- (sort_desc_perm l), E in Hy.
  pose proof (sort_desc_sorted l) as Hs. rewrite E in Hs.
  apply StronglySorted_cons in Hs as [Hx _].
  apply elem_of_cons in Hy as [->|Hy]; [done|].
  rewrite Forall_forall in Hx. by apply Hx.
Qed.
End sort_facts.

Lemma StronglySorted_filter {A} (R : relation A) (P : A → Prop)
    `{∀ x, Decision (P x)} (l : list A) :
  StronglySorted R l → StronglySorted R (filter P l).
Proof.
  induction 1 as [|x l Hs IH Hx]; [constructor|].
  rewrite filter_cons. case_decide; [|done]. constructor; [done|].
  apply Forall_forall. intros y Hy. apply list_elem_of_filter in Hy as [_ Hy].
  rewrite Forall_forall in Hx. by apply Hx.
Qed.

(** ** The matcher's core *)

Section matcher_facts.
Context `{PyStr}.
Implicit Types (c : list Recipe) (u : list string) (r : Recipe).

Lemma normalize_perm ings ings' :
  ings ≡ₚ ings' → normalize ings ≡ₚ normalize ings'.
Proof. unfold normalize. by intros ->. Qed.

Lemma overlap_perm u u' r : u ≡ₚ u' → overlap u r = overlap u' r.
Proof. unfold overlap. by intros ->. Qed.

Lemma overlap_same_up_to_order u r r' :
  same_up_to_order r r' → overlap u r = overlap u r'.
Proof. intros (_ & Hi & _). unfold overlap. by rewrite Hi. Qed.

Lemma scored_perm c u : scored c u ≡ₚ (λ r, (overlap u r, r)) <$> c.
Proof. apply sort_desc_perm. Qed.

Lemma elem_of_scored c u x :
  x ∈ scored c u ↔ x.1 = overlap u x.2 ∧ x.2 ∈ c.
Proof.
  rewrite scored_perm, list_elem_of_fmap. split.
  - by intros (r & -> & Hr).
  - intros [E Hr]. exists x.2. split; [|done]. destruct x; simpl in *.
    by subst.
Qed.

Lemma scored_snd c u : (scored c u).*2 ≡ₚ c.
Proof.
  rewrite scored_perm, <- list_fmap_compose.
  by rewrite (list_fmap_ext _ id c), list_fmap_id.
Qed.

Lemma scored_nil c u : scored c u = [] → c = [].
Proof.
  intros E. apply Permutation_nil_r. by rewrite <- (scored_snd c u), E.
Qed.

(** Either nothing passed and the top entry is returned alone, or the
    result is what passed, in sorted order. *)
Lemma match_recipes_cases c u :
  let kept := filter (λ x, passes (length u) x.1) (scored c u) in
  (kept = [] ∧ ∃ s0 l, scored c u = s0 :: l ∧ match_recipes c u = [s0.2])
  ∨ ((kept ≠ [] ∨ c = []) ∧ match_recipes c u = kept.*2).
Proof.
  intros kept. unfold match_recipes. fold kept.
  destruct kept as [|k kept'] eqn:Ek; simpl.
  - destruct (scored c u) as [|s0 l] eqn:Es.
    + right. split; [|done]. right. by apply (scored_nil c u).
    + left. split; [done|]. by exists s0, l.
  - right. split; [|done]. by left.
Qed.

Lemma match_recipes_submseteq c u : match_recipes c u ⊆+ c.
Proof.
  destruct (match_recipes_cases c u) as
    [(_ & s0 & l & Es & ->) | (_ & ->)].
  - apply singleton_submseteq_l.
    apply (elem_of_scored c u). rewrite Es. left.
  - rewrite <- (scored_snd c u) at 2.
    apply fmap_submseteq, sublist_submseteq, sublist_filter.
Qed.

Lemma match_recipes_passing c u r :
  r ∈ c → passes (length u) (overlap u r) → r ∈ match_recipes c u.
Proof.
  intros Hr Hp.
  assert ((overlap u r, r) ∈
          filter (λ x, passes (length u) x.1) (scored c u)) as Hin.
  { apply list_elem_of_filter. split; [done|]. by apply elem_of_scored. }
  destruct (match_recipes_cases c u) as
    [(E & _) | (_ & ->)].
  - rewrite E in Hin. by apply elem_of_nil in Hin.
  - by apply (list_elem_of_fmap_2 snd) in Hin.
Qed.

Lemma match_recipes_only_passing c u r r' :
  r ∈ c → passes (length u) (overlap u r) →
  r' ∈ match_recipes c u → passes (length u) (overlap u r').
Proof.
  intros Hr Hp Hr'.
  destruct (match_recipes_cases c u) as
    [(E & _) | (_ & E)].
  - exfalso.
    apply (filter_nil_not_elem_of _ _ (overlap u r, r) E); [exact Hp|].
    by apply elem_of_scored.
  - rewrite E in Hr'. apply list_elem_of_fmap in Hr' as (x & -> & Hx).
    apply list_elem_of_filter in Hx as [Hx Hs].
    apply elem_of_scored in Hs as [<- _]. done.
Qed.

Lemma sorted_snd u (l : list (nat * Recipe)) :
  Forall (λ x, x.1 = overlap u x.2) l →
  StronglySorted by_score_desc l →
  StronglySorted (λ a b, overlap u b ≤ overlap u a) l.*2.
Proof.
  intros Hl Hs. induction Hs as [|x l Hs IH Hx]; simpl; [constructor|].
  apply Forall_cons in Hl as [Ex Hl]. constructor; [by apply IH|].
  apply Forall_fmap, Forall_forall. intros y Hy. simpl.
  rewrite Forall_forall in Hx, Hl.
  rewrite <- Ex, <- (Hl y Hy). by apply Hx.
Qed.

Lemma match_recipes_sorted c u :
  StronglySorted (λ a b, overlap u b ≤ overlap u a) (match_recipes c u).
Proof.
  destruct (match_recipes_cases c u) as
    [(_ & s0 & l & _ & ->) | (_ & ->)].
  - repeat constructor.
  - apply sorted_snd.
    + apply Forall_forall. intros x Hx.
      apply list_elem_of_filter in Hx as [_ Hx].
      by apply elem_of_scored in Hx as [? _].
    + apply StronglySorted_filter, sort_desc_sorted.
Qed.

Lemma match_recipes_nonempty c u : c ≠ [] → match_recipes c u ≠ [].
Proof.
  intros Hc.
  destruct (match_recipes_cases c u) as
    [(_ & s0 & l & _ & ->) | ([Hk|Hk] & ->)]; [done | | done].
  intros E. apply Hk. by apply fmap_nil_inv in E.
Qed.

(** The fallback: nothing passes, so the head of the sorted list is
    returned, which no catalog entry outscores. *)
Lemma match_recipes_fallback c u :
  c ≠ [] → (∀ r, r ∈ c → ¬ passes (length u) (overlap u r)) →
  ∃ r, match_recipes c u = [r] ∧ r ∈ c ∧
       ∀ r', r' ∈ c → overlap u r' ≤ overlap u r.
Proof.
  intros Hc Hnone.
  destruct (match_recipes_cases c u) as
    [(_ & s0 & l & Es & ->) | ([Hk|Hk] & _)]; [| |done].
  - assert (s0 ∈ scored c u) as Hs0 by (rewrite Es; left).
    apply elem_of_scored in Hs0 as [E0 Hin0].
    exists s0.2. split; [done|]. split; [done|].
    intros r' Hr'. rewrite <- E0.
    apply (sort_desc_head_max s0 l _ Es (overlap u r', r')).
    by apply (list_elem_of_fmap_2 (λ r, (overlap u r, r))).
  - exfalso. apply Hk.
    destruct (filter _ (scored c u)) as [|x k'] eqn:Ek; [done|].
    assert (x ∈ filter (λ x, passes (length u) x.1) (scored c u)) as Hx
      by (rewrite Ek; left).
    apply list_elem_of_filter in Hx as [Hp Hx].
    apply elem_of_scored in Hx as [E Hx]. rewrite E in Hp.
    by apply Hnone in Hp.
Qed.
End matcher_facts.

(** What [match_recipes] returns depends on the two ingredient lists
    only through their sets and on the length of the user's list. *)
Section order_facts.
Context {A B : Type} (R : A → B → Prop).

Lemma insert_desc_Forall2 x y l k :
  score_related R x y → Forall2 (score_related R) l k →
  Forall2 (score_related R) (insert_desc x l) (insert_desc y k).
Proof.
  intros Hxy Hlk. induction Hlk as [|a b l k Hab Hlk IH]; simpl.
  - constructor; [done | constructor].
  - assert (x.1 < a.1 ↔ y.1 < b.1) as Hlt
      by (destruct Hxy as [-> _], Hab as [-> _]; done).
    repeat case_decide; try tauto.
    + constructor; [done | exact IH].
    + constructor; [done|]. by constructor.
Qed.

Lemma sort_desc_Forall2 l k :
  Forall2 (score_related R) l k →
  Forall2 (score_related R) (sort_desc l) (sort_desc k).
Proof.
  induction 1; simpl; [constructor | by apply insert_desc_Forall2].
Qed.
End order_facts.

Lemma submseteq_NoDup {A} (l k : list A) : l ⊆+ k → NoDup k → NoDup l.
Proof.
  intros [k' Hk]%submseteq_Permutation. rewrite Hk.
  by intros [? _]%NoDup_app.
Qed.

Section order_insensitive.
Context `{PyStr}.

Lemma match_recipes_perm c u u' :
  u ≡ₚ u' → match_recipes c u = match_recipes c u'.
Proof.
  intros Hu. unfold match_recipes, scored.
  rewrite (Permutation_length Hu).
  by rewrite (list_fmap_ext (λ r, (overlap u r, r))
                (λ r, (overlap u' r, r)) c)
    by (intros; f_equal; by apply overlap_perm).
Qed.

Lemma match_recipes_Forall2 c c' u :
  Forall2 same_up_to_order c c' →
  Forall2 same_up_to_order (match_recipes c u) (match_recipes c' u).
Proof.
  intros Hc. unfold match_recipes.
  assert (Forall2 (score_related same_up_to_order)
            (scored c u) (scored c' u)) as Hs.
  { apply sort_desc_Forall2, Forall2_fmap.
    eapply Forall2_impl; [exact Hc|]. intros r r' Hr. split; [|done].
    by apply overlap_same_up_to_order. }
  assert (Forall2 same_up_to_order
            (filter (λ x, passes (length u) x.1) (scored c u)).*2
            (filter (λ x, passes (length u) x.1) (scored c' u)).*2) as Hk.
  { apply Forall2_fmap.
    apply Forall2_impl with (score_related same_up_to_order);
      [|by intros ?? [_ ?]].
    apply Forall2_filter; [|exact Hs]. by intros x y [-> _]. }
  destruct Hk; [|by constructor].
  destruct Hs as [|?? ?? [_ ?]]; [constructor|].
  constructor; [done | constructor].
Qed.
End order_insensitive.

(** ** The handlers, run *)

Section handler_facts.
Context `{PyStr} `{Database}.

Lemma recipes_from_ingredients_empty payload w :
  normalize (req_ingredients payload) = [] →
  recipes_from_ingredients payload w =
    (Raise (HTTPException 400 "Podaj co najmniej jeden składnik"), w).
Proof. intros E. unfold recipes_from_ingredients. by rewrite E. Qed.

Lemma recipes_from_ingredients_run payload w :
  let u := normalize (req_ingredients payload) in
  let results := match_recipes catalog u in
  u ≠ [] →
  recipes_from_ingredients payload w =
    (Ok (recipe_out <$> results),
     (create_document "recipe_query"
        (DocQuery u (title <$> results)) w).2).
Proof.
  intros u results Hu. unfold recipes_from_ingredients. fold u.
  destruct u as [|i u'] eqn:Eu; [done|]. fold results.
  unfold mbind, M_bind, try_except, mret, M_ret.
  by destruct (create_document _ _ w) as [[d|e] w'].
Qed.

Lemma recipe_from_image_no_file file w :
  filename file = None ∨ filename file = Some "" →
  recipe_from_image file w =
    (Raise (HTTPException 400 "No file uploaded"), w).
Proof.
  intros Hf. unfold recipe_from_image. by destruct Hf as [-> | ->].
Qed.

Lemma recipe_from_image_run file f w :
  let recipe := guessed_recipe f in
  let written := create_document "recipe" (DocRecipe recipe) w in
  filename file = Some f → f ≠ "" →
  recipe_from_image file w =
    (Ok {| resp_id := match written.1 with
                      | Ok i => Some i
                      | Raise _ => None
                      end;
           resp_title := title recipe;
           resp_ingredients := ingredients recipe;
           resp_steps := steps recipe |},
     written.2).
Proof.
  intros recipe written Hf Hne. unfold recipe_from_image. rewrite Hf.
  destruct f as [|a f']; [done|].
  unfold mbind, M_bind, try_except, mret, M_ret, read. simpl.
  fold recipe. fold written.
  by destruct written as [[d|e] w'].
Qed.

Lemma guessed_recipe_content f :
  (title (guessed_recipe f), ingredients (guessed_recipe f),
   steps (guessed_recipe f)) = guess (lower f).
Proof. unfold guessed_recipe. by destruct (guess (lower f)) as [[??]?]. Qed.
End handler_facts.

(** ** Selection by overlap *)

(** C1, the threshold as the code picks it.  For every request whose
    normalized ingredient list [user_ings] is not empty, the matcher
    answers with catalog recipes such that: when [user_ings] has exactly
    one entry, every catalog recipe of overlap at least 1 is kept; when it
    has more than one entry (repeated entries counted), every catalog
    recipe of overlap at least 2 is kept; the kept recipes come by
    overlap, descending; and as soon as one recipe reaches the threshold,
    nothing below it is kept. *)
Theorem threshold_by_length `{PyStr} `{Database}
    (payload : IngredientsRequest) (w : World) :
  let user_ings := normalize (req_ingredients payload) in
  user_ings ≠ [] →
  ∃ results,
    (recipes_from_ingredients payload w).1 = Ok (recipe_out <$> results) ∧
    (length user_ings = 1 →
     ∀ r, r ∈ catalog → 1 ≤ overlap user_ings r → r ∈ results) ∧
    (1 < length user_ings →
     ∀ r, r ∈ catalog → 2 ≤ overlap user_ings r → r ∈ results) ∧
    StronglySorted (λ a b, overlap user_ings b ≤ overlap user_ings a)
      results ∧
    (∀ r r', r ∈ catalog → passes (length user_ings) (overlap user_ings r) →
             r' ∈ results →
             passes (length user_ings) (overlap user_ings r')).
Proof.
  intros u Hu. exists (match_recipes catalog u).
  split; [by rewrite recipes_from_ingredients_run|].
  split; [|split; [|split]].
  - intros Hlen r Hr Ho. apply match_recipes_passing; [done|]. by left.
  - intros Hlen r Hr Ho. apply match_recipes_passing; [done|]. by right.
  - apply match_recipes_sorted.
  - intros r r'. apply match_recipes_only_passing.
Qed.

Lemma threshold_by_length_witness :
  let payload := {| req_ingredients := ["pomidor"; " Ogórek"; "OLIWA "] |} in
  let user_ings := @normalize latin (req_ingredients payload) in
  user_ings ≠ [] ∧
  ∃ results,
    (@recipes_from_ingredients latin store_db payload store_up).1
      = Ok (recipe_out <$> results) ∧
    ∀ r, r ∈ catalog → 2 ≤ @overlap latin user_ings r → r ∈ results.
Proof.
  intros payload user_ings.
  assert (user_ings ≠ []) as Hne by (vm_compute; discriminate).
  split; [exact Hne|].
  destruct (@threshold_by_length latin store_db payload store_up Hne)
    as (results & E & _ & H2 & _).
  exists results. split; [exact E|].
  apply H2. vm_compute. lia.
Defined.

(** C1 as the specification words it, by the number of distinct
    ingredients, fails on a repeated ingredient: ["sól", "sól"] is the set
    {"sól"}, and "Sałatka grecka" has overlap 1 with it, yet the two
    entries of the list put the threshold at 2 and only the fallback
    recipe is returned. *)
Lemma threshold_by_set_fails : ¬ @threshold_by_set latin ["sól"; "sól"].
Proof.
  intros [H1 _].
  assert (size (list_to_set (@normalize latin ["sól"; "sól"]) : gset string)
          = 1) as Hsize by (vm_compute; reflexivity).
  specialize (H1 Hsize).
  destruct (catalog !! 1) as [greek|] eqn:Eg; [|discriminate Eg].
  assert (greek ∈ catalog) as Hin by (eapply list_elem_of_lookup_2; exact Eg).
  assert (1 ≤ @overlap latin (@normalize latin ["sól"; "sól"]) greek) as Hle.
  { injection Eg as <-. vm_compute. lia. }
  specialize (H1 greek Hin Hle).
  assert (@match_recipes latin catalog (@normalize latin ["sól"; "sól"])
          = take 1 catalog) as Er by (vm_compute; reflexivity).
  rewrite Er in H1. injection Eg as <-.
  apply list_elem_of_singleton in H1. discriminate H1.
Qed.

(** A score that passes by the length of the list also passes by the
    number of distinct entries, which is never larger. *)
Lemma passes_distinct (u : list string) (score : nat) :
  u ≠ [] → passes (length u) score →
  passes (size (list_to_set u : gset string)) score.
Proof.
  intros Hu Hp. destruct u as [|x u']; [done|].
  assert (size (list_to_set (x :: u') : gset string) ≠ 0) as Hpos.
  { apply size_non_empty_iff. set_solver. }
  destruct u' as [|y u''].
  - assert (size (list_to_set [x] : gset string) = 1) as ->; [|done].
    rewrite size_list_to_set; [done|]. apply NoDup_singleton.
  - destruct Hp as [[Hlen _]|[_ Hs]]; [done|].
    unfold passes. lia.
Qed.

(** C2.  For every request whose normalized ingredient list is not
    empty the response is a non-empty list; and when no catalog recipe
    passes the threshold, be it taken by the length of the list or by the
    number of distinct ingredients, it is exactly one recipe, a catalog
    recipe that none outscores, whatever its overlap. *)
Theorem fallback_top_recipe `{PyStr} `{Database}
    (payload : IngredientsRequest) (w : World) :
  let user_ings := normalize (req_ingredients payload) in
  user_ings ≠ [] →
  ∃ response,
    (recipes_from_ingredients payload w).1 = Ok response ∧
    response ≠ [] ∧
    ((∀ r, r ∈ catalog →
           ¬ passes (length user_ings) (overlap user_ings r)) ∨
     (∀ r, r ∈ catalog →
           ¬ passes (size (list_to_set user_ings : gset string))
               (overlap user_ings r)) →
     ∃ top, response = [recipe_out top] ∧ top ∈ catalog ∧
            ∀ r, r ∈ catalog → overlap user_ings r ≤ overlap user_ings top).
Proof.
  intros u Hu. exists (recipe_out <$> match_recipes catalog u).
  assert (catalog ≠ []) as Hc by discriminate.
  split; [by rewrite recipes_from_ingredients_run|]. split.
  - intros E%fmap_nil_inv. by apply (match_recipes_nonempty catalog u).
  - intros Hnone.
    assert (∀ r, r ∈ catalog → ¬ passes (length u) (overlap u r)) as Hnone'.
    { destruct Hnone as [Hn|Hn]; [done|].
      intros r Hr Hp. apply (Hn r Hr). by apply passes_distinct. }
    destruct (match_recipes_fallback catalog u Hc Hnone') as (top & -> & ?).
    by exists top.
Qed.

Lemma fallback_top_recipe_witness :
  let payload := {| req_ingredients := ["xyz123"] |} in
  let user_ings := @normalize latin (req_ingredients payload) in
  user_ings ≠ [] ∧
  (∀ r, r ∈ catalog →
        ¬ passes (length user_ings) (@overlap latin user_ings r)) ∧
  ∃ top,
    (@recipes_from_ingredients latin store_db payload store_up).1
      = Ok [recipe_out top] ∧
    top ∈ catalog.
Proof.
  intros payload user_ings.
  assert (user_ings ≠ []) as Hne by (vm_compute; discriminate).
  assert (∀ r, r ∈ catalog →
               ¬ passes (length user_ings) (@overlap latin user_ings r))
    as Hnone.
  { apply Forall_forall, (bool_decide_unpack _). vm_compute. exact I. }
  split; [exact Hne|]. split; [exact Hnone|].
  destruct (@fallback_top_recipe latin store_db payload store_up Hne)
    as (response & E & _ & Hfb).
  destruct (Hfb (or_introl Hnone)) as (top & -> & Hin & _).
  exists top. split; [exact E | exact Hin].
Defined.

(** C10.  Every element of a successful response is the title,
    ingredients and steps of one of the three catalog records, as the
    catalog spells them; no element occurs twice; and the response has
    between one and three elements. *)
Theorem response_from_catalog `{PyStr} `{Database}
    (payload : IngredientsRequest) (w : World) :
  normalize (req_ingredients payload) ≠ [] →
  ∃ response,
    (recipes_from_ingredients payload w).1 = Ok response ∧
    (∀ e, e ∈ response →
          ∃ r, r ∈ catalog ∧
               e = {| out_title := title r;
                      out_ingredients := ingredients r;
                      out_steps := steps r |}) ∧
    NoDup response ∧
    1 ≤ length response ≤ 3.
Proof.
  intros Hu.
  set (u := normalize (req_ingredients payload)) in *.
  pose proof (match_recipes_submseteq catalog u) as Hsub.
  exists (recipe_out <$> match_recipes catalog u).
  split; [by rewrite recipes_from_ingredients_run|].
  split; [|split].
  - intros e (r & -> & Hr)%list_elem_of_fmap. exists r. split; [|done].
    by eapply elem_of_submseteq.
  - eapply submseteq_NoDup; [by apply fmap_submseteq|].
    apply (NoDup_fmap_1 out_title).
    apply (bool_decide_unpack _). vm_compute. exact I.
  - rewrite length_fmap. split.
    + assert (match_recipes catalog u ≠ []) as Hne
        by (by apply match_recipes_nonempty).
      destruct (match_recipes catalog u); [done | simpl; lia].
    + by apply submseteq_length in Hsub.
Qed.

Lemma response_from_catalog_witness :
  let payload := {| req_ingredients := ["Czosnek"; "sól "] |} in
  @normalize latin (req_ingredients payload) ≠ [] ∧
  ∃ response,
    (@recipes_from_ingredients latin store_db payload store_down).1
      = Ok response ∧
    NoDup response ∧ 1 ≤ length response ≤ 3.
Proof.
  intros payload.
  assert (@normalize latin (req_ingredients payload) ≠ []) as Hne
    by (vm_compute; discriminate).
  split; [exact Hne|].
  destruct (@response_from_catalog latin store_db payload store_down Hne)
    as (response & E & _ & Hnd & Hlen).
  exists response. split; [exact E|]. split; [exact Hnd | exact Hlen].
Defined.

(** C9.  The selection does not see the order of ingredients.  Permuting
    the user's list leaves the selected recipes, and the whole response,
    as they were; permuting the ingredients of catalog recipes selects
    the recipes at the same catalog positions in the same order. *)
Theorem matching_ignores_order `{PyStr}
    (c c' : list Recipe) (ings ings' : list string) :
  ings ≡ₚ ings' → Forall2 same_up_to_order c c' →
  match_recipes c (normalize ings) = match_recipes c (normalize ings') ∧
  Forall2 same_up_to_order
    (match_recipes c (normalize ings)) (match_recipes c' (normalize ings')) ∧
  ∀ (D : Database) (w w' : World),
    (recipes_from_ingredients {| req_ingredients := ings |} w).1 =
    (recipes_from_ingredients {| req_ingredients := ings' |} w').1.
Proof.
  intros Hi Hc. pose proof (normalize_perm _ _ Hi) as Hu.
  split; [by apply match_recipes_perm|]. split.
  - rewrite <- (match_recipes_perm c' _ _ Hu).
    by apply match_recipes_Forall2.
  - intros D w w'.
    destruct (decide (normalize ings = [])) as [E|N].
    + assert (normalize ings' = []) as E'
        by (apply Permutation_nil_r; rewrite <- Hu, E; done).
      by rewrite !recipes_from_ingredients_empty.
    + assert (normalize ings' ≠ []) as N'.
      { intros E'. apply N. apply Permutation_nil_r. by rewrite Hu, E'. }
      rewrite !recipes_from_ingredients_run by done. simpl.
      by rewrite (match_recipes_perm catalog _ _ Hu).
Qed.

Lemma matching_ignores_order_witness :
  let ings := ["pomidor"; "oliwa"; "sól"] in
  let ings' := ["sól"; "pomidor"; "oliwa"] in
  let c' := (λ r, {| title := title r;
                     ingredients := reverse (ingredients r);
                     steps := steps r;
                     source := source r;
                     image_filename := image_filename r |}) <$> catalog in
  ings ≡ₚ ings' ∧ Forall2 same_up_to_order catalog c' ∧
  Forall2 same_up_to_order
    (@match_recipes latin catalog (@normalize latin ings))
    (@match_recipes latin c' (@normalize latin ings')).
Proof.
  intros ings ings' c'.
  assert (ings ≡ₚ ings') as Hi
    by (symmetry; apply (Permutation_cons_append ["pomidor"; "oliwa"] "sól")).
  assert (Forall2 same_up_to_order catalog c') as Hc.
  { apply Forall2_fmap_r, Forall_Forall2_diag, Forall_forall.
    intros r _. repeat split. simpl. symmetry. apply reverse_Permutation. }
  split; [exact Hi|]. split; [exact Hc|].
  exact (proj1 (proj2 (@matching_ignores_order latin catalog c' ings ings'
                         Hi Hc))).
Defined.

(** ** The image resolver *)

(** C3.  For every upload with a non-empty filename the resolver
    answers, and what it answers follows the lower-cased filename, first
    match first: the pizza guess if it contains "pizza" or "margherita";
    failing that, the salad guess if it contains "salad", "salat" or
    "sałat"; failing both, the generic guess.  The pizza guess has its
    title, six ingredients and five steps. *)
Theorem image_keyword_priority `{PyStr} `{Database}
    (file : UploadFile) (f : string) (w : World) :
  filename file = Some f → f ≠ "" →
  ∃ response,
    (recipe_from_image file w).1 = Ok response ∧
    let name_lower := lower f in
    let pizza := str_in "pizza" name_lower || str_in "margherita" name_lower in
    let salad := str_in "salad" name_lower || str_in "salat" name_lower
                 || str_in "sałat" name_lower in
    (pizza = true → image_content response = pizza_template) ∧
    (pizza = false → salad = true →
     image_content response = salad_template) ∧
    (pizza = false → salad = false →
     image_content response = generic_template) ∧
    (pizza = true →
     resp_title response = "Domowa pizza margherita" ∧
     length (resp_ingredients response) = 6 ∧
     length (resp_steps response) = 5).
Proof.
  intros Hf Hne. rewrite (recipe_from_image_run file f w Hf Hne).
  eexists. split; [reflexivity|].
  intros name_lower pizza salad.
  assert (guess name_lower =
          if pizza then pizza_template
          else if salad then salad_template else generic_template) as Eg.
  { unfold guess, any_in, existsb, pizza, salad. rewrite !orb_false_r.
    by rewrite orb_assoc. }
  unfold image_content; simpl.
  rewrite guessed_recipe_content. fold name_lower. rewrite Eg.
  split; [|split; [|split]].
  - by intros ->.
  - by intros -> ->.
  - by intros -> ->.
  - intros Hp. rewrite Hp in Eg. unfold name_lower in Eg.
    rewrite <- guessed_recipe_content in Eg.
    injection Eg as -> -> ->. done.
Qed.

Lemma image_keyword_priority_witness :
  let file := {| filename := Some "Salad_or_PIZZA.jpg"; content := [] |} in
  filename file = Some "Salad_or_PIZZA.jpg" ∧ "Salad_or_PIZZA.jpg" ≠ "" ∧
  ∃ response,
    (@recipe_from_image latin store_db file store_up).1 = Ok response ∧
    image_content response = pizza_template.
Proof.
  intros file. split; [reflexivity|].
  assert ("Salad_or_PIZZA.jpg" ≠ "") as Hne by discriminate.
  split; [exact Hne|].
  destruct (@image_keyword_priority latin store_db file _ store_up
              eq_refl Hne) as (response & E & Hp & _).
  exists response. split; [exact E|]. apply Hp. vm_compute. reflexivity.
Defined.

(** C5.  The resolver raises exactly when the upload has no filename or
    an empty one, and what it raises then is the 400 "No file uploaded",
    with nothing written; on every other upload it answers. *)
Theorem no_file_client_error `{PyStr} `{Database}
    (file : UploadFile) (w : World) :
  ((∃ e, (recipe_from_image file w).1 = Raise e) ↔
   (filename file = None ∨ filename file = Some "")) ∧
  ((∃ response, (recipe_from_image file w).1 = Ok response) ↔
   (∃ f, filename file = Some f ∧ f ≠ "")) ∧
  (∀ e, (recipe_from_image file w).1 = Raise e →
        e = HTTPException 400 "No file uploaded" ∧
        (recipe_from_image file w).2 = w).
Proof.
  destruct (filename file) as [f|] eqn:Ef.
  - destruct (decide (f = "")) as [->|Hne].
    + rewrite (recipe_from_image_no_file file w) by (by right). simpl.
      split; [|split].
      * split; [by right | by eexists].
      * split; [by intros [? ?] | by intros (? & [= <-] & ?)].
      * by intros e [= <-].
    + rewrite (recipe_from_image_run file f w Ef Hne). simpl.
      split; [|split].
      * split; [by intros [? ?] | by intros [? | [= ?]]].
      * split; [by exists f | by eexists].
      * by intros e ?.
  - rewrite (recipe_from_image_no_file file w) by (by left). simpl.
    split; [|split].
    + split; [by left | by eexists].
    + split; [by intros [? ?] | by intros (? & ? & ?)].
    + by intros e [= <-].
Qed.

(** C8.  Two uploads with the same filename get the same title,
    ingredients and steps, or the same error, whatever their bytes and
    whatever store each request meets and leaves. *)
Theorem content_from_filename_only `{PyStr} (D1 D2 : Database)
    (file1 file2 : UploadFile) (w1 : @World D1) (w2 : @World D2) :
  filename file1 = filename file2 →
  outcome image_content (@recipe_from_image _ D1 file1 w1).1 =
  outcome image_content (@recipe_from_image _ D2 file2 w2).1.
Proof.
  intros Ef. destruct (filename file2) as [f|] eqn:Ef2.
  - destruct (decide (f = "")) as [->|Hne].
    + by rewrite !recipe_from_image_no_file by (by right).
    + by rewrite (recipe_from_image_run file1 f w1 Ef Hne),
                 (recipe_from_image_run file2 f w2 Ef2 Hne).
  - by rewrite !recipe_from_image_no_file by (by left).
Qed.

Lemma content_from_filename_only_witness :
  let file1 := {| filename := Some "obiad.png";
                  content := [Byte.x89; Byte.x50] |} in
  let file2 := {| filename := Some "obiad.png"; content := [] |} in
  filename file1 = filename file2 ∧
  outcome image_content
    (@recipe_from_image latin store_db file1 store_up).1 =
  outcome image_content
    (@recipe_from_image latin store_db file2 store_down).1.
Proof.
  intros file1 file2. split; [reflexivity|].
  exact (@content_from_filename_only latin store_db store_db
           file1 file2 store_up store_down eq_refl).
Defined.

(** ** The matcher's error and the persistence write *)

Lemma normalize_nil `{PyStr} ings :
  normalize ings = [] ↔ ∀ i, i ∈ ings → strip i = "".
Proof.
  unfold normalize. split.
  - intros E%fmap_nil_inv i Hi.
    destruct (decide (strip i = "")) as [|Hne]; [done|].
    by destruct (filter_nil_not_elem_of _ _ i E Hne).
  - intros Hall.
    destruct (filter (λ i, strip i ≠ "") ings) as [|x l] eqn:E; [done|].
    assert (x ∈ filter (λ i, strip i ≠ "") ings) as Hx by (rewrite E; left).
    apply list_elem_of_filter in Hx as [Hne Hx]. by destruct (Hne (Hall x Hx)).
Qed.

(** C4.  The matcher raises exactly when no ingredient is left after
    normalizing, that is when every input string is empty once trimmed;
    it then raises the 400 "Podaj co najmniej jeden składnik", returns no
    recipe and leaves the store as it was. *)
Theorem empty_input_client_error `{PyStr} `{Database}
    (payload : IngredientsRequest) (w : World) :
  let user_ings := normalize (req_ingredients payload) in
  ((∃ e, (recipes_from_ingredients payload w).1 = Raise e) ↔
   user_ings = []) ∧
  (user_ings = [] ↔ ∀ i, i ∈ req_ingredients payload → strip i = "") ∧
  (∀ e, (recipes_from_ingredients payload w).1 = Raise e →
        recipes_from_ingredients payload w =
          (Raise (HTTPException 400 "Podaj co najmniej jeden składnik"), w)).
Proof.
  intros u. split; [|split; [apply normalize_nil|]].
  - split.
    + intros [e He]. destruct (decide (u = [])) as [|Hne]; [done|].
      by rewrite recipes_from_ingredients_run in He.
    + intros E. rewrite recipes_from_ingredients_empty by done. by eexists.
  - intros e He. destruct (decide (u = [])) as [E|Hne].
    + by apply recipes_from_ingredients_empty.
    + by rewrite recipes_from_ingredients_run in He.
Qed.

(** C6.  Whether the persistence write returns or raises, a valid
    request is answered.  The image response carries the same title,
    ingredients and steps for every store, with the id the write returned,
    or null when it raised; the matcher's response is the same for every
    store. *)
Theorem persistence_failure_swallowed `{PyStr}
    (file : UploadFile) (f : string) (payload : IngredientsRequest) :
  filename file = Some f → f ≠ "" →
  normalize (req_ingredients payload) ≠ [] →
  (∃ t i s, ∀ (D : Database) (w : World),
     (recipe_from_image file w).1 =
       Ok {| resp_id :=
               match (create_document "recipe"
                        (DocRecipe (guessed_recipe f)) w).1 with
               | Ok d => Some d
               | Raise _ => None
               end;
             resp_title := t;
             resp_ingredients := i;
             resp_steps := s |}) ∧
  (∃ response, ∀ (D : Database) (w : World),
     (recipes_from_ingredients payload w).1 = Ok response).
Proof.
  intros Hf Hne Hu. split.
  - exists (title (guessed_recipe f)), (ingredients (guessed_recipe f)),
      (steps (guessed_recipe f)).
    intros D w. by rewrite (recipe_from_image_run file f w Hf Hne).
  - eexists. intros D w. by rewrite recipes_from_ingredients_run.
Qed.

Lemma persistence_failure_swallowed_witness :
  let file := {| filename := Some "zupa.jpg"; content := [] |} in
  let payload := {| req_ingredients := ["Makaron"] |} in
  filename file = Some "zupa.jpg" ∧ "zupa.jpg" ≠ "" ∧
  @normalize latin (req_ingredients payload) ≠ [] ∧
  ∃ response, ∀ (D : Database) (w : World),
    (@recipes_from_ingredients latin D payload w).1 = Ok response.
Proof.
  intros file payload.
  assert ("zupa.jpg" ≠ "") as Hne by discriminate.
  assert (@normalize latin (req_ingredients payload) ≠ []) as Hu
    by (vm_compute; discriminate).
  split; [reflexivity|]. split; [exact Hne|]. split; [exact Hu|].
  exact (proj2 (@persistence_failure_swallowed latin file "zupa.jpg" payload
                  eq_refl Hne Hu)).
Defined.

(** ** Diagnostics *)

(** C7.  Whatever the [db] handle is (absent; present and listing its
    collections; present with a listing that raises; present with a
    [name] that raises) and whatever the environment holds,
    [test_database] returns a response, and its [collections] has at most
    ten entries. *)
Theorem diagnostics_never_raises (db : option DbHandle)
    (getenv : string → option string) :
  ∃ response,
    test_database db getenv = Ok response ∧
    length (collections response) ≤ 10.
Proof.
  unfold test_database, test_database_body.
  destruct db as [[nm lc]|].
  - destruct nm as [|v|e], lc as [cs|e'];
      (eexists; split; [reflexivity|]); simpl;
      rewrite ?length_take; lia.
  - eexists. split; [reflexivity|]. simpl. lia.
Qed.

(** ** The specification's worked inputs *)

Example one_ingredient_makaron :
  title <$> @match_recipes latin catalog (@normalize latin ["makaron"])
  = ["Spaghetti aglio e olio"].
Proof. vm_compute. reflexivity. Qed.

Example three_ingredients_greek :
  title <$> @match_recipes latin catalog
              (@normalize latin ["pomidor"; "ogórek"; "oliwa"])
  = ["Sałatka grecka"].
Proof. vm_compute. reflexivity. Qed.

Example no_overlap_falls_back :
  title <$> @match_recipes latin catalog (@normalize latin ["xyz123"])
  = ["Spaghetti aglio e olio"].
Proof. vm_compute. reflexivity. Qed.

Example matching_trims_and_lowers :
  @normalize latin ["  CZOSNEK "; "   "; "Ryż"; ""] = ["czosnek"; "ryż"].
Proof. vm_compute. reflexivity. Qed.

Example ties_keep_catalog_order :
  title <$> @match_recipes latin catalog (@normalize latin ["sól"])
  = ["Spaghetti aglio e olio"; "Sałatka grecka"; "Kurczak curry"].
Proof. vm_compute. reflexivity. Qed.

Example query_is_logged :
  docs (@recipes_from_ingredients latin store_db
          {| req_ingredients := [" Makaron"] |} store_up).2
  = [("recipe_query", DocQuery ["makaron"] ["Spaghetti aglio e olio"])].
Proof. vm_compute. reflexivity. Qed.

Example salad_by_polish_name :
  outcome image_content
    (@recipe_from_image latin store_db
       {| filename := Some "SAŁATKA.png"; content := [] |} store_down).1
  = Ok salad_template.
Proof. vm_compute. reflexivity. Qed.

Example collections_truncated :
  outcome collections
    (test_database
       (Some {| db_name := AttrValue "recipes";
                list_collection_names := Ok (replicate 12 "c") |})
       (λ _, None))
  = Ok (replicate 10 "c").
Proof. vm_compute. reflexivity. Qed.

Example name_that_raises :
  outcome database
    (test_database
       (Some {| db_name := AttrRaises (Exception "boom");
                list_collection_names := Ok [] |})
       (λ _, None))
  = Ok "❌ Error: boom".
Proof. vm_compute. reflexivity. Qed.

(** * Further properties of the handlers *)

(** ** Slicing text *)





Lemma str_take_all n s : utf8_chars s ≤ n → str_take n s = s.
Proof.
  revert n. induction s as [|c s IH]; intros n Hn; [done|].
  simpl in *. destruct (utf8_cont c).
  - f_equal. apply IH. lia.
  - destruct n as [|n]; [lia|]. f_equal. apply IH. lia.
Qed.

(** ** More on the diagnostics *)

Lemma env_set_spec (getenv : string → option string) (k : string) :
  env_set getenv k = true ↔ ∃ v, getenv k = Some v ∧ v ≠ "".
Proof.
  unfold env_set. destruct (getenv k) as [v|].
  - rewrite bool_decide_eq_true.
    split; [by exists v | by intros (? & [= <-] & ?)].
  - split; [done | by intros (? & ? & ?)].
Qed.

Ltac run_diagnostics :=
  unfold test_database, test_database_body, hasattr_name, getattr_name, call;
  unfold mbind, M_bind, try_except, modify.

(** X1.  The two configuration flags of the diagnostics report come from
    the environment alone: each reads "✅ Set" exactly when its variable
    is set to a non-empty value, and "❌ Not Set" otherwise.  What the
    handler wrote there earlier, the name of the database included, is
    never returned. *)
Theorem diagnostics_flags_from_env (db : option DbHandle)
    (getenv : string → option string) :
  outcome (λ r, (database_url r, database_name r)) (test_database db getenv)
  = Ok (Some (if env_set getenv "DATABASE_URL" then "✅ Set"
              else "❌ Not Set"),
        Some (if env_set getenv "DATABASE_NAME" then "✅ Set"
              else "❌ Not Set")) ∧
  ∀ k, env_set getenv k = true ↔ ∃ v, getenv k = Some v ∧ v ≠ "".
Proof.
  split; [|intros k; apply env_set_spec].
  run_diagnostics. destruct db as [[nm lc]|]; [|reflexivity].
  destruct nm as [|v|e], lc as [cs|e']; reflexivity.
Qed.

(** X2.  With a [db] handle whose [name] can be read or is missing, the
    report says "Connected"; then, if the collections can be listed, the
    database is "✅ Connected & Working" and [collections] holds the first
    ten names in their order (all of them when there are at most ten), and
    if listing raises, the database is "⚠️  Connected but Error: " followed
    by the first 50 characters of the error, with no collections. *)
Theorem diagnostics_connected (d : DbHandle)
    (getenv : string → option string) :
  (∀ e, db_name d ≠ AttrRaises e) →
  test_database (Some d) getenv =
    Ok (match list_collection_names d with
        | Ok cs => diag_response getenv "✅ Connected & Working"
                     "Connected" (take 10 cs)
        | Raise e =>
            diag_response getenv
              ("⚠️  Connected but Error: " +:+ str_take 50 (exn_str e))
              "Connected" []
        end) ∧
  ∀ cs, list_collection_names d = Ok cs → length cs ≤ 10 →
        outcome collections (test_database (Some d) getenv) = Ok cs.
Proof.
  intros Hn.
  assert (test_database (Some d) getenv =
    Ok (match list_collection_names d with
        | Ok cs => diag_response getenv "✅ Connected & Working"
                     "Connected" (take 10 cs)
        | Raise e =>
            diag_response getenv
              ("⚠️  Connected but Error: " +:+ str_take 50 (exn_str e))
              "Connected" []
        end)) as E.
  { run_diagnostics.
    destruct (db_name d) as [|v|e] eqn:En; [| |by destruct (Hn e)];
      by destruct (list_collection_names d) as [cs|e']. }
  split; [exact E|].
  intros cs Ecs Hlen. rewrite E, Ecs. simpl. by rewrite take_ge.
Qed.

Lemma diagnostics_connected_witness :
  let d := {| db_name := AttrMissing;
              list_collection_names := Ok ["recipe"; "recipe_query"] |} in
  (∀ e, db_name d ≠ AttrRaises e) ∧
  outcome collections (test_database (Some d) (λ _, None))
  = Ok ["recipe"; "recipe_query"].
Proof.
  intros d.
  assert (∀ e, db_name d ≠ AttrRaises e) as Hn by (intros e; discriminate).
  split; [exact Hn|].
  apply (proj2 (diagnostics_connected d (λ _, None) Hn)); [reflexivity|].
  simpl. lia.
Defined.





(** ** More on the image resolver *)

(** X6.  A request with a filename makes one write, of kind "recipe":
    the store it leaves is the store that write leaves.  The record
    written carries the title, ingredients and steps of the response, the
    source "image", and the filename as uploaded, not lower-cased. *)
Theorem image_recipe_written `{PyStr} `{Database}
    (file : UploadFile) (f : string) (w : World) :
  filename file = Some f → f ≠ "" →
  ∃ response,
    (recipe_from_image file w).1 = Ok response ∧
    (recipe_from_image file w).2 =
      (create_document "recipe"
         (DocRecipe {| title := resp_title response;
                       ingredients := resp_ingredients response;
                       steps := resp_steps response;
                       source := Some "image";
                       image_filename := Some f |}) w).2.
Proof.
  intros Hf Hne. rewrite (recipe_from_image_run file f w Hf Hne).
  eexists. split; [reflexivity|]. simpl. do 3 f_equal.
  unfold guessed_recipe. by destruct (guess (lower f)) as [[??]?].
Qed.

Lemma image_recipe_written_witness :
  let file := {| filename := Some "Moja PIZZA.jpg"; content := [] |} in
  filename file = Some "Moja PIZZA.jpg" ∧ "Moja PIZZA.jpg" ≠ "" ∧
  ∃ r, docs (@recipe_from_image latin store_db file store_up).2
         = [("recipe", DocRecipe r)] ∧
       image_filename r = Some "Moja PIZZA.jpg".
Proof.
  intros file. split; [reflexivity|].
  assert ("Moja PIZZA.jpg" ≠ "") as Hne by discriminate.
  split; [exact Hne|].
  destruct (@image_recipe_written latin store_db file _ store_up eq_refl Hne)
    as (response & _ & E).
  eexists. rewrite E. split; reflexivity.
Defined.

(** X7.  The guess does not see the case of the filename: two uploads
    whose non-empty filenames have the same lower-casing get the same
    title, ingredients and steps. *)
Theorem image_case_insensitive `{PyStr} (D1 D2 : Database)
    (file1 file2 : UploadFile) (f1 f2 : string)
    (w1 : @World D1) (w2 : @World D2) :
  filename file1 = Some f1 → filename file2 = Some f2 →
  f1 ≠ "" → f2 ≠ "" → lower f1 = lower f2 →
  outcome image_content (@recipe_from_image _ D1 file1 w1).1 =
  outcome image_content (@recipe_from_image _ D2 file2 w2).1.
Proof.
  intros Hf1 Hf2 Hn1 Hn2 El.
  rewrite (recipe_from_image_run file1 f1 w1 Hf1 Hn1),
          (recipe_from_image_run file2 f2 w2 Hf2 Hn2).
  unfold image_content. simpl. by rewrite !guessed_recipe_content, El.
Qed.

Lemma image_case_insensitive_witness :
  let file1 := {| filename := Some "SAŁATKA.PNG"; content := [] |} in
  let file2 := {| filename := Some "sałatka.png"; content := [] |} in
  filename file1 = Some "SAŁATKA.PNG" ∧ filename file2 = Some "sałatka.png" ∧
  "SAŁATKA.PNG" ≠ "" ∧ "sałatka.png" ≠ "" ∧
  latin_lower "SAŁATKA.PNG" = latin_lower "sałatka.png" ∧
  outcome image_content
    (@recipe_from_image latin store_db file1 store_up).1 =
  outcome image_content
    (@recipe_from_image latin store_db file2 store_down).1.
Proof.
  intros file1 file2.
  assert ("SAŁATKA.PNG" ≠ "") as Hn1 by discriminate.
  assert ("sałatka.png" ≠ "") as Hn2 by discriminate.
  assert (latin_lower "SAŁATKA.PNG" = latin_lower "sałatka.png") as El
    by (vm_compute; reflexivity).
  repeat (split; [first [reflexivity | assumption]|]).
  exact (@image_case_insensitive latin store_db store_db file1 file2 _ _
           store_up store_down eq_refl eq_refl Hn1 Hn2 El).
Defined.

(** X8.  Every answer of the resolver is one of the three fixed guesses,
    and has a title, at least one ingredient and at least one step. *)
Theorem image_response_wellformed `{PyStr} `{Database}
    (file : UploadFile) (f : string) (w : World) :
  filename file = Some f → f ≠ "" →
  ∃ response,
    (recipe_from_image file w).1 = Ok response ∧
    image_content response
      ∈ [pizza_template; salad_template; generic_template] ∧
    resp_title response ≠ "" ∧
    resp_ingredients response ≠ [] ∧
    resp_steps response ≠ [].
Proof.
  intros Hf Hne. rewrite (recipe_from_image_run file f w Hf Hne).
  eexists. split; [reflexivity|].
  unfold image_content. simpl.
  pose proof (guessed_recipe_content f) as Eg. revert Eg.
  generalize (title (guessed_recipe f)), (ingredients (guessed_recipe f)),
    (steps (guessed_recipe f)).
  intros t i s Eg.
  assert ((t, i, s) ∈ [pizza_template; salad_template; generic_template])
    as Hin.
  { rewrite Eg. unfold guess.
    destruct (any_in _ _); [|destruct (any_in _ _)]; set_solver. }
  split; [exact Hin|].
  repeat (apply elem_of_cons in Hin as [Hin|Hin]);
    [..|by apply elem_of_nil in Hin];
    injection Hin as -> -> ->; repeat split; discriminate.
Qed.

Lemma image_response_wellformed_witness :
  let file := {| filename := Some "IMG_0042.HEIC"; content := [] |} in
  filename file = Some "IMG_0042.HEIC" ∧ "IMG_0042.HEIC" ≠ "" ∧
  ∃ response,
    (@recipe_from_image latin store_db file store_down).1 = Ok response ∧
    resp_ingredients response ≠ [] ∧ resp_steps response ≠ [].
Proof.
  intros file. split; [reflexivity|].
  assert ("IMG_0042.HEIC" ≠ "") as Hne by discriminate.
  split; [exact Hne|].
  destruct (@image_response_wellformed latin store_db file _ store_down
              eq_refl Hne) as (response & E & _ & _ & Hi & Hs).
  exists response. split; [exact E|]. split; [exact Hi | exact Hs].
Defined.

(** ** More on the matcher *)

Lemma length_remove_dups {A} `{EqDecision A} (l : list A) :
  length (remove_dups l) ≤ length l.
Proof.
  induction l as [|x l IH]; simpl; [lia|].
  case_decide; simpl; lia.
Qed.

Lemma size_list_to_set_le (l : list string) :
  size (list_to_set l : gset string) ≤ length l.
Proof.
  assert ((list_to_set l : gset string) = list_to_set (remove_dups l)) as ->.
  { apply set_eq. intros x.
    by rewrite !elem_of_list_to_set, elem_of_remove_dups. }
  rewrite size_list_to_set by apply NoDup_remove_dups.
  apply length_remove_dups.
Qed.

Lemma filter_all {A} (P : A → Prop) `{∀ x, Decision (P x)} (l : list A) :
  Forall P l → filter P l = l.
Proof.
  induction 1 as [|x l Hx Hl IH]; [done|].
  by rewrite filter_cons_True, IH.
Qed.

Lemma filter_none {A} (P : A → Prop) `{∀ x, Decision (P x)} (l : list A) :
  Forall (λ x, ¬ P x) l → filter P l = [].
Proof.
  induction 1 as [|x l Hx Hl IH]; [done|].
  by rewrite filter_cons_False.
Qed.

Lemma filter_head_split {A} (P : A → Prop) `{∀ x, Decision (P x)}
    (l : list A) x t :
  filter P l = x :: t →
  ∃ l1 l2, l = l1 ++ x :: l2 ∧ Forall (λ y, ¬ P y) l1.
Proof.
  induction l as [|y l IH]; [done|].
  rewrite filter_cons. case_decide as Hy.
  - intros [= -> _]. by exists [], l.
  - intros (l1 & l2 & -> & Hl1)%IH. exists (y :: l1), l2.
    split; [done | by constructor].
Qed.

Lemma filter_score_fmap (f : Recipe → nat) (k : nat) (c : list Recipe) :
  filter (λ x : nat * Recipe, x.1 = k) ((λ r, (f r, r)) <$> c)
  = (λ r, (f r, r)) <$> filter (λ r, f r = k) c.
Proof.
  induction c as [|r c IH]; [done|].
  rewrite fmap_cons, (filter_cons _ (f r, r)), (filter_cons _ r), IH.
  simpl. by case_decide.
Qed.

Lemma filter_score_snd (f : Recipe → nat) (k : nat)
    (l : list (nat * Recipe)) :
  Forall (λ x, x.1 = f x.2) l →
  filter (λ r, f r = k) l.*2 = (filter (λ x, x.1 = k) l).*2.
Proof.
  induction 1 as [|x l Hx Hl IH]; [done|].
  rewrite fmap_cons, (filter_cons _ x.2), (filter_cons _ x), IH, <- Hx.
  by case_decide.
Qed.

Lemma sort_desc_const {A} (k : nat) (l : list (nat * A)) :
  Forall (λ x, x.1 = k) l → sort_desc l = l.
Proof.
  intros Hl.
  assert (Forall (λ x, x.1 = k) (sort_desc l)) as Hs
    by (by rewrite sort_desc_perm).
  by rewrite <- (filter_all _ _ Hs), sort_desc_stable, filter_all.
Qed.

Section matcher_more.
Context `{PyStr}.
Implicit Types (c : list Recipe) (u : list string) (r : Recipe).

Lemma overlap_count u r :
  overlap u r = length (filter (λ x, uses x r) (remove_dups u)).
Proof.
  unfold overlap, uses.
  rewrite <- (size_list_to_set (C:=gset string))
    by apply NoDup_filter, NoDup_remove_dups.
  f_equal. apply set_eq. intros x.
  rewrite elem_of_intersection, !elem_of_list_to_set, list_elem_of_filter,
    elem_of_remove_dups. tauto.
Qed.

Lemma overlap_single x r :
  overlap [x] r = if decide (uses x r) then 1 else 0.
Proof.
  rewrite overlap_count. simpl. rewrite filter_cons, filter_nil.
  by case_decide.
Qed.

Lemma scored_stable c u k :
  filter (λ x, x.1 = k) (scored c u)
  = (λ r, (overlap u r, r)) <$> filter (λ r, overlap u r = k) c.
Proof. unfold scored. by rewrite sort_desc_stable, filter_score_fmap. Qed.

Lemma scored_Forall c u : Forall (λ x, x.1 = overlap u x.2) (scored c u).
Proof.
  apply Forall_forall. intros x Hx. by apply elem_of_scored in Hx as [? _].
Qed.

Lemma match_recipes_ties c u k :
  passes (length u) k →
  filter (λ r, overlap u r = k) (match_recipes c u)
  = filter (λ r, overlap u r = k) c.
Proof.
  intros Hk.
  destruct (match_recipes_cases c u) as
    [(Ek & s0 & l & Es & ->) | (_ & ->)].
  - assert (∀ r, r ∈ c → overlap u r ≠ k) as Hnot.
    { intros r Hr <-.
      apply (filter_nil_not_elem_of _ _ (overlap u r, r) Ek); [exact Hk|].
      by apply elem_of_scored. }
    rewrite (filter_none _ c) by (apply Forall_forall; exact Hnot).
    apply filter_none. constructor; [|constructor].
    apply Hnot. apply (elem_of_scored c u). rewrite Es. left.
  - rewrite filter_score_snd.
    2:{ apply Forall_forall. intros x [_ Hx]%list_elem_of_filter.
        by apply elem_of_scored in Hx as [? _]. }
    rewrite list_filter_filter.
    rewrite (list_filter_iff _ (λ x, passes (length u) x.1 ∧ x.1 = k))
      by (intros; tauto).
    rewrite <- list_filter_filter, scored_stable.
    rewrite filter_all.
    + rewrite <- list_fmap_compose. by rewrite (list_fmap_ext _ id), list_fmap_id.
    + apply Forall_forall. intros x (r & -> & Hr)%list_elem_of_fmap.
      apply list_elem_of_filter in Hr as [-> _]. exact Hk.
Qed.

Lemma match_recipes_zero c u :
  (∀ r, r ∈ c → overlap u r = 0) → match_recipes c u = take 1 c.
Proof.
  intros Hz.
  assert (scored c u = (λ r, (overlap u r, r)) <$> c) as Es.
  { apply (sort_desc_const 0), Forall_forall.
    intros x (r & -> & Hr)%list_elem_of_fmap. by apply Hz. }
  assert (filter (λ x, passes (length u) x.1) (scored c u) = []) as Ek.
  { apply filter_none, Forall_forall. intros x [E Hx]%elem_of_scored.
    rewrite E, (Hz _ Hx). unfold passes. lia. }
  unfold match_recipes. rewrite Ek, Es. by destruct c.
Qed.

Lemma match_recipes_fallback_first c u :
  c ≠ [] → (∀ r, r ∈ c → ¬ passes (length u) (overlap u r)) →
  ∃ l1 top l2,
    c = l1 ++ top :: l2 ∧ match_recipes c u = [top] ∧
    (∀ r, r ∈ l1 → overlap u r < overlap u top) ∧
    (∀ r, r ∈ l2 → overlap u r ≤ overlap u top).
Proof.
  intros Hc Hnone.
  destruct (match_recipes_fallback c u Hc Hnone) as (top & Em & _ & Hmax).
  destruct (match_recipes_cases c u) as
    [(_ & s0 & l & Es & Em') | ([Hk|Hk] & _)]; [| |done].
  - rewrite Em in Em'. injection Em' as ->.
    pose proof (scored_stable c u s0.1) as Hst.
    rewrite Es, filter_cons_True in Hst by done.
    destruct (filter (λ r, overlap u r = s0.1) c) as [|r1 t] eqn:Ef;
      [done|].
    rewrite fmap_cons in Hst. injection Hst as Hs0 _.
    assert (r1 = s0.2) as -> by (by rewrite Hs0).
    assert (s0.1 = overlap u s0.2) as E0 by (by rewrite Hs0 at 1).
    destruct (filter_head_split _ _ _ _ Ef) as (l1 & l2 & -> & Hl1).
    exists l1, s0.2, l2. split; [done|]. split; [done|]. split.
    + intros r Hr. rewrite Forall_forall in Hl1.
      specialize (Hl1 r Hr). specialize (Hmax r). rewrite <- E0 in *.
      assert (overlap u r ≤ s0.1); [|lia].
      apply Hmax. apply elem_of_app. by left.
    + intros r Hr. apply Hmax. apply elem_of_app. right. by right.
  - exfalso. apply Hk. apply filter_none, Forall_forall.
    intros x [E Hx]%elem_of_scored. rewrite E. by apply Hnone.
Qed.

Lemma match_recipes_single c x :
  match_recipes c [x] =
    let hits := filter (uses x) c in
    if decide (hits = []) then take 1 c else hits.
Proof.
  assert (filter (uses x) c = filter (λ r, overlap [x] r = 1) c) as Eh.
  { apply list_filter_iff. intros r. rewrite overlap_single.
    case_decide; split; (done || lia). }
  simpl. rewrite Eh.
  assert (passes (length [x]) 1) as Hp1 by (left; simpl; lia).
  pose proof (match_recipes_ties c [x] 1 Hp1) as Ht.
  case_decide as Hhits.
  - apply match_recipes_zero. intros r Hr.
    assert (overlap [x] r ≠ 1) as Hne.
    { intros E. eapply (filter_nil_not_elem_of _ _ r Hhits); done. }
    rewrite overlap_single in *. by case_decide.
  - rewrite <- Ht. symmetry. apply filter_all, Forall_forall.
    intros r' Hr'.
    destruct (filter (λ r, overlap [x] r = 1) c) as [|r t] eqn:Ef; [done|].
    assert (r ∈ filter (λ r, overlap [x] r = 1) c) as Hr
      by (rewrite Ef; left).
    apply list_elem_of_filter in Hr as [Er Hr].
    assert (passes (length [x]) (overlap [x] r')) as Hp'.
    { apply (match_recipes_only_passing c [x] r r'); [done| |done].
      by rewrite Er. }
    rewrite overlap_single in *. case_decide; [done|].
    destruct Hp' as [[_ ?]|[? _]]; simpl in *; lia.
Qed.

Lemma passes_class n n' s :
  1 ≤ n → 1 ≤ n' → (n = 1 ↔ n' = 1) → passes n s ↔ passes n' s.
Proof. unfold passes. lia. Qed.

Lemma match_recipes_same_set c u u' :
  u ≠ [] → u' ≠ [] →
  (list_to_set u : gset string) = list_to_set u' →
  (length u = 1 ↔ length u' = 1) →
  match_recipes c u = match_recipes c u'.
Proof.
  intros Hu Hu' Eset Hlen.
  assert (∀ r, overlap u r = overlap u' r) as Eo
    by (intros r; unfold overlap; by rewrite Eset).
  assert (scored c u = scored c u') as Es.
  { unfold scored. f_equal. apply list_fmap_ext. intros _ r _. by rewrite Eo. }
  unfold match_recipes. rewrite Es.
  rewrite (list_filter_iff (λ x, passes (length u) x.1)
             (λ x, passes (length u') x.1)); [done|].
  intros x. apply passes_class; [| |done].
  - destruct u; [done | simpl; lia].
  - destruct u'; [done | simpl; lia].
Qed.
End matcher_more.

(** X9.  A request with at least one ingredient left makes one write, of
    kind "recipe_query": the store it leaves is the store that write
    leaves.  The record written holds the normalized ingredients as
    [ingredients] and, as [matches], the titles of the response in the
    order of the response. *)
Theorem query_logged `{PyStr} `{Database}
    (payload : IngredientsRequest) (w : World) :
  let user_ings := normalize (req_ingredients payload) in
  user_ings ≠ [] →
  ∃ response,
    (recipes_from_ingredients payload w).1 = Ok response ∧
    (recipes_from_ingredients payload w).2 =
      (create_document "recipe_query"
         (DocQuery user_ings (out_title <$> response)) w).2.
Proof.
  intros u Hu. rewrite recipes_from_ingredients_run by done.
  eexists. split; [reflexivity|]. simpl.
  by rewrite <- list_fmap_compose.
Qed.

Lemma query_logged_witness :
  let payload := {| req_ingredients := ["Kurczak"; " ryż "; "IMBIR"] |} in
  let user_ings := @normalize latin (req_ingredients payload) in
  user_ings ≠ [] ∧
  ∃ response,
    (@recipes_from_ingredients latin store_db payload store_up).1
      = Ok response ∧
    docs (@recipes_from_ingredients latin store_db payload store_up).2
      = [("recipe_query", DocQuery user_ings (out_title <$> response))].
Proof.
  intros payload user_ings.
  assert (user_ings ≠ []) as Hne by (vm_compute; discriminate).
  split; [exact Hne|].
  destruct (@query_logged latin store_db payload store_up Hne)
    as (response & E & E2).
  exists response. split; [exact E|]. rewrite E2. reflexivity.
Defined.

(** X10.  The score of a recipe is the number of distinct user
    ingredients found among the recipe's lower-cased ingredients; it
    exceeds neither the number of ingredients the user gave nor the number
    of ingredients of the recipe. *)
Theorem overlap_counts_distinct `{PyStr}
    (user_ings : list string) (r : Recipe) :
  overlap user_ings r
    = length (filter (λ x, uses x r) (remove_dups user_ings)) ∧
  overlap user_ings r ≤ length user_ings ∧
  overlap user_ings r ≤ length (ingredients r).
Proof.
  split; [apply overlap_count|]. split.
  - rewrite overlap_count.
    etrans; [apply length_filter | apply length_remove_dups].
  - unfold overlap.
    etrans; [apply subseteq_size, intersection_subseteq_r|].
    etrans; [apply size_list_to_set_le|]. by rewrite length_fmap.
Qed.

(** X11.  A request that normalizes to a single ingredient is answered
    with the catalog recipes that use it, in catalog order; if none uses
    it, with the first catalog recipe alone. *)
Theorem single_ingredient_selection `{PyStr} `{Database}
    (payload : IngredientsRequest) (w : World) (x : string) :
  normalize (req_ingredients payload) = [x] →
  (recipes_from_ingredients payload w).1 =
    Ok (recipe_out <$>
          (let hits := filter (uses x) catalog in
           if decide (hits = []) then take 1 catalog else hits)).
Proof.
  intros Eu. rewrite recipes_from_ingredients_run by (by rewrite Eu).
  simpl. by rewrite Eu, match_recipes_single.
Qed.

Lemma single_ingredient_selection_witness :
  let payload := {| req_ingredients := [" CZOSNEK"] |} in
  @normalize latin (req_ingredients payload) = ["czosnek"] ∧
  outcome (fmap out_title)
    (@recipes_from_ingredients latin store_db payload store_up).1
  = Ok ["Spaghetti aglio e olio"; "Kurczak curry"].
Proof.
  intros payload.
  assert (@normalize latin (req_ingredients payload) = ["czosnek"]) as Eu
    by (vm_compute; reflexivity).
  split; [exact Eu|].
  rewrite (@single_ingredient_selection latin store_db payload store_up
             "czosnek" Eu).
  vm_compute. reflexivity.
Defined.

(** X12.  Recipes of equal overlap are treated alike and keep their
    catalog order: for every overlap count that reaches the threshold, the
    response holds all catalog recipes of that count, in the order of the
    catalog. *)
Theorem ties_in_catalog_order `{PyStr} `{Database}
    (payload : IngredientsRequest) (w : World) :
  let user_ings := normalize (req_ingredients payload) in
  user_ings ≠ [] →
  ∃ results,
    (recipes_from_ingredients payload w).1 = Ok (recipe_out <$> results) ∧
    ∀ k, passes (length user_ings) k →
         filter (λ r, overlap user_ings r = k) results
         = filter (λ r, overlap user_ings r = k) catalog.
Proof.
  intros u Hu. exists (match_recipes catalog u).
  split; [by rewrite recipes_from_ingredients_run|].
  intros k. apply match_recipes_ties.
Qed.

Lemma ties_in_catalog_order_witness :
  let payload := {| req_ingredients := ["sól"; "czosnek"] |} in
  let user_ings := @normalize latin (req_ingredients payload) in
  user_ings ≠ [] ∧
  ∃ results,
    (@recipes_from_ingredients latin store_db payload store_up).1
      = Ok (recipe_out <$> results) ∧
    title <$> filter (λ r, @overlap latin user_ings r = 2) results
    = ["Spaghetti aglio e olio"; "Kurczak curry"].
Proof.
  intros payload user_ings.
  assert (user_ings ≠ []) as Hne by (vm_compute; discriminate).
  split; [exact Hne|].
  destruct (@ties_in_catalog_order latin store_db payload store_up Hne)
    as (results & E & Hk).
  exists results. split; [exact E|].
  unfold user_ings.
  rewrite (Hk 2) by (right; vm_compute; lia).
  vm_compute. reflexivity.
Defined.

(** X13.  When nothing reaches the threshold, the one recipe returned is
    the first catalog recipe of highest overlap: every recipe before it in
    the catalog has a strictly lower overlap, every recipe after it none
    higher. *)
Theorem fallback_first_best `{PyStr} `{Database}
    (payload : IngredientsRequest) (w : World) :
  let user_ings := normalize (req_ingredients payload) in
  user_ings ≠ [] →
  (∀ r, r ∈ catalog → ¬ passes (length user_ings) (overlap user_ings r)) →
  ∃ before top after,
    catalog = before ++ top :: after ∧
    (recipes_from_ingredients payload w).1 = Ok [recipe_out top] ∧
    (∀ r, r ∈ before → overlap user_ings r < overlap user_ings top) ∧
    (∀ r, r ∈ after → overlap user_ings r ≤ overlap user_ings top).
Proof.
  intros u Hu Hnone.
  assert (catalog ≠ []) as Hc by discriminate.
  destruct (match_recipes_fallback_first catalog u Hc Hnone)
    as (l1 & top & l2 & Ec & Em & Hb & Ha).
  exists l1, top, l2. split; [exact Ec|].
  split; [|by split].
  rewrite recipes_from_ingredients_run by done. simpl.
  fold u. by rewrite Em.
Qed.

Lemma fallback_first_best_witness :
  let payload := {| req_ingredients := ["ryż"; "mąka"] |} in
  let user_ings := @normalize latin (req_ingredients payload) in
  user_ings ≠ [] ∧
  (∀ r, r ∈ catalog →
        ¬ passes (length user_ings) (@overlap latin user_ings r)) ∧
  ∃ before top after,
    catalog = before ++ top :: after ∧
    (@recipes_from_ingredients latin store_db payload store_up).1
      = Ok [recipe_out top].
Proof.
  intros payload user_ings.
  assert (user_ings ≠ []) as Hne by (vm_compute; discriminate).
  assert (∀ r, r ∈ catalog →
               ¬ passes (length user_ings) (@overlap latin user_ings r))
    as Hnone.
  { apply Forall_forall, (bool_decide_unpack _). vm_compute. exact I. }
  split; [exact Hne|]. split; [exact Hnone|].
  destruct (@fallback_first_best latin store_db payload store_up Hne Hnone)
    as (before & top & after & Ec & E & _).
  exists before, top, after. split; [exact Ec | exact E].
Defined.

Lemma overlap_zero `{PyStr} (u : list string) (r : Recipe) :
  (∀ x, x ∈ u → ¬ uses x r) → overlap u r = 0.
Proof.
  intros Hno. rewrite overlap_count, filter_none; [done|].
  apply Forall_forall. intros x Hx.
  exact (Hno x (proj1 (elem_of_remove_dups u x) Hx)).
Qed.

(** X14.  When no ingredient of the request occurs in any catalog
    recipe, the response is the first catalog recipe alone. *)
Theorem unknown_ingredients_first_recipe `{PyStr} `{Database}
    (payload : IngredientsRequest) (w : World) :
  let user_ings := normalize (req_ingredients payload) in
  user_ings ≠ [] →
  (∀ x r, x ∈ user_ings → r ∈ catalog → ¬ uses x r) →
  (recipes_from_ingredients payload w).1 = Ok (recipe_out <$> take 1 catalog).
Proof.
  intros u Hu Hno. rewrite recipes_from_ingredients_run by done. simpl.
  rewrite match_recipes_zero; [done|].
  intros r Hr. apply overlap_zero. intros x Hx. by apply Hno.
Qed.

Lemma unknown_ingredients_first_recipe_witness :
  let payload := {| req_ingredients := ["tofu"; "Soczewica"] |} in
  let user_ings := @normalize latin (req_ingredients payload) in
  user_ings ≠ [] ∧
  (∀ x r, x ∈ user_ings → r ∈ catalog → ¬ @uses latin x r) ∧
  outcome (fmap out_title)
    (@recipes_from_ingredients latin store_db payload store_up).1
  = Ok ["Spaghetti aglio e olio"].
Proof.
  intros payload user_ings.
  assert (user_ings ≠ []) as Hne by (vm_compute; discriminate).
  assert (∀ x r, x ∈ user_ings → r ∈ catalog → ¬ @uses latin x r) as Hno.
  { intros x r Hx Hr. revert r Hr. apply Forall_forall.
    revert x Hx. apply Forall_forall, (bool_decide_unpack _).
    vm_compute. exact I. }
  split; [exact Hne|]. split; [exact Hno|].
  rewrite (@unknown_ingredients_first_recipe latin store_db payload store_up
             Hne Hno).
  vm_compute. reflexivity.
Defined.

(** X15.  Repeating ingredients changes the response only by turning a
    one-entry list into a longer one: two requests whose normalized lists
    name the same set of ingredients, both with one entry or both with
    more, get the same response. *)
Theorem repeats_keep_selection `{PyStr} `{Database}
    (payload payload' : IngredientsRequest) (w w' : World) :
  let u := normalize (req_ingredients payload) in
  let u' := normalize (req_ingredients payload') in
  u ≠ [] → u' ≠ [] →
  (list_to_set u : gset string) = list_to_set u' →
  (length u = 1 ↔ length u' = 1) →
  (recipes_from_ingredients payload w).1 =
  (recipes_from_ingredients payload' w').1.
Proof.
  intros u u' Hu Hu' Eset Hlen.
  rewrite !recipes_from_ingredients_run by done. simpl.
  by rewrite (match_recipes_same_set catalog u u').
Qed.

Lemma repeats_keep_selection_witness :
  let payload := {| req_ingredients := ["sól"; "czosnek"] |} in
  let payload' :=
    {| req_ingredients := ["Czosnek"; "sól"; " sól"; "czosnek "] |} in
  let u := @normalize latin (req_ingredients payload) in
  let u' := @normalize latin (req_ingredients payload') in
  u ≠ [] ∧ u' ≠ [] ∧
  (list_to_set u : gset string) = list_to_set u' ∧
  (length u = 1 ↔ length u' = 1) ∧
  (@recipes_from_ingredients latin store_db payload store_up).1 =
  (@recipes_from_ingredients latin store_db payload' store_down).1.
Proof.
  intros payload payload' u u'.
  assert (u ≠ []) as Hu by (vm_compute; discriminate).
  assert (u' ≠ []) as Hu' by (vm_compute; discriminate).
  assert ((list_to_set u : gset string) = list_to_set u') as Eset
    by (vm_compute; reflexivity).
  assert (length u = 1 ↔ length u' = 1) as Hlen
    by (split; vm_compute; intros E; discriminate E).
  split; [exact Hu|]. split; [exact Hu'|]. split; [exact Eset|].
  split; [exact Hlen|].
  exact (@repeats_keep_selection latin store_db payload payload'
           store_up store_down Hu Hu' Eset Hlen).
Defined.
